(** * chem_calcs: absorbance-to-concentration formulas and the dilution solver

    A shallow embedding of [chem_calcs.py] and the properties its
    specification states about it.

    Numbers.  The Python code computes on [float]s.  The module is embedded
    twice.

    - Which value a call returns is stated over the reals ([R]): the
      arithmetic is exact, which is the reading the specification asks for
      ("over exact real arithmetic", "within floating-point tolerance").
      This embedding keeps the control flow of the interpreter: the
      exceptions raised by [/], [math.sqrt], arithmetic on [None] and the
      read of an unassigned local, the NaN that [np.sqrt] hands back on a
      negative argument, and the truthiness test behind [if not x].  It has
      no rounding, overflow, underflow, infinity or NaN operand.

    - Which calls of the two calibration inversions raise, and which
      exception, is stated over binary64 numbers (module [F64]), where a
      square can overflow or underflow and where a Python [float] and a
      NumPy [float64] scalar differ: the first raises [OverflowError] and
      [ZeroDivisionError], the second hands back [inf] or [nan]. *)

From Corelib Require Import PrimFloat.
From Stdlib Require Import Floats ZArith Reals Lra List.
Import ListNotations.

Local Close Scope float_scope.
Local Open Scope R_scope.

(** ** The fragment of the Python runtime the module relies on *)

Module Py.

(** The exceptions the four functions can raise. *)
Inductive exn : Set :=
| ZeroDivisionError   (* float division by zero *)
| ValueError          (* math domain error *)
| TypeError           (* unsupported operand type(s): NoneType *)
| UnboundLocalError   (* local variable referenced before assignment *)
| OverflowError.      (* (34, 'Numerical result out of range') *)

(** A computation either returns or raises. *)
Inductive result (A : Type) : Type :=
| Ok (a : A)
| Raise (e : exn).

Arguments Ok {A} a.
Arguments Raise {A} e.

Definition bind {A B : Type} (m : result A) (k : A -> result B) : result B :=
  match m with
  | Ok a => k a
  | Raise e => Raise e
  end.

Definition returns {A : Type} (m : result A) : Prop := exists a, m = Ok a.
Definition raises {A : Type} (m : result A) : Prop := exists e, m = Raise e.

(** The objects [conc_to_dil] is called with: [None] (the default of each
    parameter) or a number. *)
Inductive value : Type :=
| PyNone
| PyNum (r : R).

(** [bool(x)]: [None] and zero are false, every other number is true. *)
Definition truthy (x : value) : bool :=
  match x with
  | PyNone => false
  | PyNum r => if Req_dec_T r 0 then false else true
  end.

(** [not x] *)
Definition py_not (x : value) : bool := negb (truthy x).

(** [x / y] on numbers. *)
Definition truediv (x y : R) : result R :=
  if Req_dec_T y 0 then Raise ZeroDivisionError else Ok (x / y).

(** [x * y] and [x / y] on objects: an operand that is [None] is a
    [TypeError], and is found out before the divisor is looked at. *)
Definition py_mul (x y : value) : result value :=
  match x, y with
  | PyNum a, PyNum b => Ok (PyNum (a * b))
  | _, _ => Raise TypeError
  end.

Definition py_truediv (x y : value) : result value :=
  match x, y with
  | PyNum a, PyNum b => bind (truediv a b) (fun q => Ok (PyNum q))
  | _, _ => Raise TypeError
  end.

(** [math.sqrt x] raises on a negative argument. *)
Definition math_sqrt (x : R) : result R :=
  if Rlt_dec x 0 then Raise ValueError else Ok (sqrt x).

(** A NumPy scalar: [np.sqrt] of a negative number is [nan] (with a
    warning), not an exception. *)
Inductive np_float : Type :=
| np_nan
| np_val (r : R).

Definition np_sqrt (x : R) : np_float :=
  if Rlt_dec x 0 then np_nan else np_val (sqrt x).

(** Reading a local variable that may not have been assigned. *)
Definition load_local {A : Type} (slot : option A) : result A :=
  match slot with
  | Some v => Ok v
  | None => Raise UnboundLocalError
  end.

End Py.

Import Py.

Declare Scope py_scope.
Delimit Scope py_scope with py.
Notation "x <- m ;; k" := (bind m (fun x => k))
  (at level 61, m at next level, right associativity) : py_scope.
Notation "x // y" := (truediv x y) (at level 40, left associativity) : py_scope.
Local Open Scope py_scope.

(** ** The four functions of [chem_calcs.py] *)

(** The radicand of the quadratic formula, named for the statements
    below; the source writes it in line. *)
Definition discriminant (a b c ABS : R) : R := b ^ 2 - 4 * a * (c - ABS).

(** [poly_abs_to_conc(a, b, c, ABS)] *)
Definition poly_abs_to_conc (a b c ABS : R) : result R :=
  s <- math_sqrt (b ^ 2 - 4 * a * (c - ABS)) ;;
  conc <- (- b + s) // (2 * a) ;;
  Ok conc.

(** [calc_Si_conc_and_uncert(avg_abs, Si_yint, Si_slope, Sxo_Si,
    Si_slope_err, Si_yint_err)] *)
Definition calc_Si_conc_and_uncert
    (avg_abs Si_yint Si_slope Sxo_Si Si_slope_err Si_yint_err : R)
    : result (R * np_float) :=
  conc <- (avg_abs - Si_yint) // Si_slope ;;
  i1 <- 1 // Si_slope ;;
  let u_abs_term := i1 * Sxo_Si in
  q <- (avg_abs - Si_yint) // (Si_slope ^ 2) ;;
  let u_slope_term := q * Si_slope_err in
  i2 <- 1 // Si_slope ;;
  let u_yint_term := i2 * Si_yint_err in
  let u_combined :=
    np_sqrt (u_abs_term ^ 2 + u_slope_term ^ 2 + u_yint_term ^ 2) in
  Ok (conc, u_combined).

(** [calc_PO4_conc_and_uncert(avg_abs, a, b, c, Sxo_PO4)] *)
Definition calc_PO4_conc_and_uncert (avg_abs a b c Sxo_PO4 : R)
    : result (R * np_float) :=
  conc <- poly_abs_to_conc a b c avg_abs ;;
  conc_plus <- poly_abs_to_conc a b c (avg_abs + Sxo_PO4) ;;
  conc_minus <- poly_abs_to_conc a b c (avg_abs - Sxo_PO4) ;;
  let u_sample := Rabs (conc_plus - conc_minus) / 2 in
  let u_combined := np_sqrt (Sxo_PO4 ^ 2 + u_sample ^ 2) in
  Ok (conc, u_combined).

(** [conc_to_dil(c1=None, v1=None, c2=None, v2=None)].  The local [output]
    starts unassigned; each of the four [if] statements is run in turn, and
    each one whose test succeeds assigns [output] afresh. *)
Definition assign_if {A : Type} (test : bool) (rhs : result A)
    (output : option A) : result (option A) :=
  if test then (x <- rhs ;; Ok (Some x)) else Ok output.

Definition conc_to_dil (c1 v1 c2 v2 : value) : result value :=
  let output := None in
  output <- assign_if (py_not c1) (p <- py_mul c2 v2 ;; py_truediv p v1) output ;;
  output <- assign_if (py_not c2) (p <- py_mul c1 v1 ;; py_truediv p v2) output ;;
  output <- assign_if (py_not v1) (p <- py_mul c2 v2 ;; py_truediv p c1) output ;;
  output <- assign_if (py_not v2) (p <- py_mul c1 v1 ;; py_truediv p c2) output ;;
  load_local output.

(** ** The parts of [conc_to_dil], named *)

(** The dilution identity of the docstring, [c1 * v1 = c2 * v2]. *)
Definition dilution_identity (c1 v1 c2 v2 : R) : Prop := c1 * v1 = c2 * v2.

(** The four unknowns of the identity, in the order in which the source
    tests them. *)
Inductive unknown : Set := U_c1 | U_c2 | U_v1 | U_v2.

Definition checking_order : list unknown := [U_c1; U_c2; U_v1; U_v2].

Section Dilution.

Variables c1 v1 c2 v2 : value.

(** The argument standing for an unknown. *)
Definition arg (u : unknown) : value :=
  match u with
  | U_c1 => c1
  | U_c2 => c2
  | U_v1 => v1
  | U_v2 => v2
  end.

(** The right-hand side of the assignment guarded by [if not u]. *)
Definition solve_for (u : unknown) : result value :=
  match u with
  | U_c1 => p <- py_mul c2 v2 ;; py_truediv p v1
  | U_c2 => p <- py_mul c1 v1 ;; py_truediv p v2
  | U_v1 => p <- py_mul c2 v2 ;; py_truediv p c1
  | U_v2 => p <- py_mul c1 v1 ;; py_truediv p c2
  end.

(** The unknowns whose argument is falsy, in checking order. *)
Definition falsy_args : list unknown :=
  filter (fun u => py_not (arg u)) checking_order.

(** Running the assignments of a list of unknowns one after the other. *)
Fixpoint run_assignments (us : list unknown) (output : option value)
    : result (option value) :=
  match us with
  | [] => Ok output
  | u :: us' => x <- solve_for u ;; run_assignments us' (Some x)
  end.

(** The behaviour the specification words: the inputs are checked in the
    fixed order, and the first falsy one, and only that one, is solved for
    from the other three.  This definition follows the specification, not
    the source; it is what [conc_to_dil] is compared with.  With no falsy
    input nothing is solved for, and the error of the source is kept. *)
Definition first_falsy_solve : result value :=
  if py_not c1 then solve_for U_c1
  else if py_not c2 then solve_for U_c2
  else if py_not v1 then solve_for U_v1
  else if py_not v2 then solve_for U_v2
  else Raise UnboundLocalError.

End Dilution.

(** ** The calibration curve *)

(** The quadratic calibration curve that [poly_abs_to_conc] solves for the
    concentration: the absorbance of a concentration [x]. *)
Definition calibration_curve (a b c x : R) : R := a * x ^ 2 + b * x + c.

(** ** The calibration inversions on binary64 numbers *)

Module F64.

Local Open Scope float_scope.

(** The numbers a caller passes are Python [float]s or NumPy [float64]
    scalars (the entries of an array, the results of [np.mean]).  Both hold
    a binary64 and round alike; they differ in what an exceptional
    operation does.  All the arguments of a call are taken to be of one
    kind, and NumPy's error state to be the default one (warn). *)
Inductive kind : Set :=
| PyFloat
| NpFloat64.

(** [x ** 2] overflows when the square of a finite number is infinite. *)
Definition pow2_overflows (x : float) : bool :=
  is_infinity (x * x) && negb (is_infinity x).

(** [x ** 2].  A Python [float] raises [OverflowError] on overflow and
    underflows to zero in silence; a NumPy scalar hands back [inf].  The
    square is taken to be the correctly rounded product. *)
Definition pow2_raises (k : kind) (x : float) : bool :=
  match k with
  | PyFloat => pow2_overflows x
  | NpFloat64 => false
  end.

Definition pow2 (k : kind) (x : float) : result float :=
  if pow2_raises k x then Raise OverflowError else Ok (x * x).

(** [x / y].  A Python [float] raises on a zero divisor of either sign; a
    NumPy scalar hands back [inf] or [nan]. *)
Definition truediv_raises (k : kind) (y : float) : bool :=
  match k with
  | PyFloat => y =? 0
  | NpFloat64 => false
  end.

Definition truediv (k : kind) (x y : float) : result float :=
  if truediv_raises k y then Raise ZeroDivisionError else Ok (x / y).

(** [math.sqrt x] converts its argument to a Python [float] and raises on a
    negative one, [-inf] included; [-0.0] and [nan] go through. *)
Definition math_sqrt (x : float) : result float :=
  if x <? 0 then Raise ValueError else Ok (PrimFloat.sqrt x).

(** [np.sqrt x] never raises. *)
Definition np_sqrt (x : float) : float := PrimFloat.sqrt x.

(** The radicand as the source computes it, every operation rounded. *)
Definition discriminant (a b c ABS : float) : float :=
  b * b - 4 * a * (c - ABS).

(** [poly_abs_to_conc(a, b, c, ABS)] *)
Definition poly_abs_to_conc (k : kind) (a b c ABS : float) : result float :=
  b2 <- pow2 k b ;;
  s <- math_sqrt (b2 - 4 * a * (c - ABS)) ;;
  conc <- truediv k (- b + s) (2 * a) ;;
  Ok conc.

(** [calc_Si_conc_and_uncert(avg_abs, Si_yint, Si_slope, Sxo_Si,
    Si_slope_err, Si_yint_err)] *)
Definition calc_Si_conc_and_uncert (k : kind)
    (avg_abs Si_yint Si_slope Sxo_Si Si_slope_err Si_yint_err : float)
    : result (float * float) :=
  conc <- truediv k (avg_abs - Si_yint) Si_slope ;;
  i1 <- truediv k 1 Si_slope ;;
  let u_abs_term := i1 * Sxo_Si in
  m2 <- pow2 k Si_slope ;;
  q <- truediv k (avg_abs - Si_yint) m2 ;;
  let u_slope_term := q * Si_slope_err in
  i2 <- truediv k 1 Si_slope ;;
  let u_yint_term := i2 * Si_yint_err in
  t1 <- pow2 k u_abs_term ;;
  t2 <- pow2 k u_slope_term ;;
  t3 <- pow2 k u_yint_term ;;
  let u_combined := np_sqrt (t1 + t2 + t3) in
  Ok (conc, u_combined).

(** The three terms of the uncertainty, for the statements below. *)
Definition u_abs_term (Si_slope Sxo_Si : float) : float :=
  1 / Si_slope * Sxo_Si.

Definition u_slope_term (avg_abs Si_yint Si_slope Si_slope_err : float)
    : float :=
  (avg_abs - Si_yint) / (Si_slope * Si_slope) * Si_slope_err.

Definition u_yint_term (Si_slope Si_yint_err : float) : float :=
  1 / Si_slope * Si_yint_err.



End F64.

(** ** Equations of the runtime operations *)

Section Runtime.

Lemma truediv_nonzero (x y : R) : y <> 0 -> x // y = Ok (x / y).
Proof.
  intros Hy. unfold truediv.
  destruct (Req_dec_T y 0) as [E | _]; [contradiction | reflexivity].
Qed.

Lemma truediv_zero (x : R) : x // 0 = Raise ZeroDivisionError.
Proof.
  unfold truediv.
  destruct (Req_dec_T 0 0) as [_ | N]; [reflexivity | now elim N].
Qed.

Lemma truediv_returns (x y : R) : returns (x // y) <-> y <> 0.
Proof.
  split.
  - intros [q Hq] ->. rewrite truediv_zero in Hq. discriminate.
  - intros Hy. exists (x / y). now apply truediv_nonzero.
Qed.

Lemma math_sqrt_nonneg (x : R) : 0 <= x -> math_sqrt x = Ok (sqrt x).
Proof.
  intros Hx. unfold math_sqrt.
  destruct (Rlt_dec x 0) as [L | _]; [lra | reflexivity].
Qed.

Lemma math_sqrt_neg (x : R) : x < 0 -> math_sqrt x = Raise ValueError.
Proof.
  intros Hx. unfold math_sqrt.
  destruct (Rlt_dec x 0) as [_ | N]; [reflexivity | contradiction].
Qed.

Lemma np_sqrt_nonneg (x : R) : 0 <= x -> np_sqrt x = np_val (sqrt x).
Proof.
  intros Hx. unfold np_sqrt.
  destruct (Rlt_dec x 0) as [L | _]; [lra | reflexivity].
Qed.

Lemma truthy_num (r : R) : r <> 0 -> truthy (PyNum r) = true.
Proof.
  intros Hr. simpl.
  destruct (Req_dec_T r 0) as [E | _]; [contradiction | reflexivity].
Qed.

Lemma truthy_zero : truthy (PyNum 0) = false.
Proof.
  simpl. destruct (Req_dec_T 0 0) as [_ | N]; [reflexivity | now elim N].
Qed.

Lemma truthy_true_inv (x : value) :
  truthy x = true -> exists r, x = PyNum r /\ r <> 0.
Proof.
  destruct x as [| r]; simpl; [discriminate |].
  destruct (Req_dec_T r 0) as [E | N]; [discriminate |].
  intros _. now exists r.
Qed.

Lemma truthy_false_inv (x : value) :
  truthy x = false -> x = PyNone \/ x = PyNum 0.
Proof.
  destruct x as [| r]; simpl; [now left |].
  destruct (Req_dec_T r 0) as [E | N]; [| discriminate].
  intros _. right. now rewrite E.
Qed.

Lemma py_not_num (r : R) : r <> 0 -> py_not (PyNum r) = false.
Proof. intros Hr. unfold py_not. now rewrite truthy_num. Qed.

Lemma py_not_zero : py_not (PyNum 0) = true.
Proof. unfold py_not. now rewrite truthy_zero. Qed.

Lemma py_not_none : py_not PyNone = true.
Proof. reflexivity. Qed.

End Runtime.

(** A sum of squares is never negative, so [np.sqrt] is only ever applied
    inside its domain. *)
Lemma sum_sq2_nonneg (x y : R) : 0 <= x ^ 2 + y ^ 2.
Proof. nra. Qed.

Lemma sum_sq3_nonneg (x y z : R) : 0 <= x ^ 2 + y ^ 2 + z ^ 2.
Proof. nra. Qed.

Lemma sq_nonzero (m : R) : m <> 0 -> m ^ 2 <> 0.
Proof. intros Hm. apply pow_nonzero. exact Hm. Qed.

(** ** Linear calibration: [calc_Si_conc_and_uncert] *)

Section Linear.

Variables A b0 m : R.
Hypothesis slope_nonzero : m <> 0.

(** The call as a closed form: no exception, and the two components as
    the code computes them. *)
Lemma calc_Si_eval (s_blank s_m s_b0 : R) :
  calc_Si_conc_and_uncert A b0 m s_blank s_m s_b0 =
  Ok ((A - b0) / m,
      np_val (sqrt ((1 / m * s_blank) ^ 2
                    + ((A - b0) / m ^ 2 * s_m) ^ 2
                    + (1 / m * s_b0) ^ 2))).
Proof.
  unfold calc_Si_conc_and_uncert.
  rewrite !truediv_nonzero by auto using sq_nonzero. cbn [bind].
  rewrite np_sqrt_nonneg by apply sum_sq3_nonneg.
  reflexivity.
Qed.

End Linear.

(** C1.  For a slope [m <> 0] the linear inversion returns
    [conc = (A - b0) / m] and
    [u_combined = sqrt ((s_blank/m)^2 + (((A - b0)/m^2) * s_m)^2 + (s_b0/m)^2)];
    with the three error inputs at zero the concentration is still
    [(A - b0) / m] and the uncertainty terms vanish: the root of the sum of
    their squares is zero. *)
Theorem calc_Si_conc_and_uncert_formula (A b0 m s_blank s_m s_b0 : R) :
  m <> 0 ->
  calc_Si_conc_and_uncert A b0 m s_blank s_m s_b0 =
    Ok ((A - b0) / m,
        np_val (sqrt ((s_blank / m) ^ 2
                      + ((A - b0) / m ^ 2 * s_m) ^ 2
                      + (s_b0 / m) ^ 2)))
  /\ calc_Si_conc_and_uncert A b0 m 0 0 0 = Ok ((A - b0) / m, np_val 0).
Proof.
  intros Hm. split.
  - rewrite calc_Si_eval by exact Hm.
    replace (1 / m * s_blank) with (s_blank / m) by (field; exact Hm).
    replace (1 / m * s_b0) with (s_b0 / m) by (field; exact Hm).
    reflexivity.
  - rewrite calc_Si_eval by exact Hm.
    replace ((1 / m * 0) ^ 2 + ((A - b0) / m ^ 2 * 0) ^ 2 + (1 / m * 0) ^ 2)
      with 0 by (field; exact Hm).
    now rewrite sqrt_0.
Qed.

Lemma calc_Si_conc_and_uncert_formula_witness :
  calc_Si_conc_and_uncert 5 1 2 3 4 6 =
    Ok ((5 - 1) / 2,
        np_val (sqrt ((3 / 2) ^ 2 + ((5 - 1) / 2 ^ 2 * 4) ^ 2 + (6 / 2) ^ 2)))
  /\ calc_Si_conc_and_uncert 5 1 2 0 0 0 = Ok ((5 - 1) / 2, np_val 0).
Proof. apply (calc_Si_conc_and_uncert_formula 5 1 2 3 4 6). lra. Defined.

(** In this embedding, where the arithmetic is exact, a zero slope makes
    the very first division raise [ZeroDivisionError], and for every other
    slope the call returns a concentration together with an uncertainty
    that is a number.  On binary64 numbers the second half fails, as the
    section on binary64 numbers shows. *)
Lemma calc_Si_conc_and_uncert_exact_failures (A b0 m s_blank s_m s_b0 : R) :
  (m = 0 ->
   calc_Si_conc_and_uncert A b0 m s_blank s_m s_b0 = Raise ZeroDivisionError)
  /\ (m <> 0 ->
      exists conc u,
        calc_Si_conc_and_uncert A b0 m s_blank s_m s_b0 = Ok (conc, np_val u)).
Proof.
  split.
  - intros ->. unfold calc_Si_conc_and_uncert.
    now rewrite truediv_zero.
  - intros Hm. rewrite calc_Si_eval by exact Hm. eauto.
Qed.

(** ** Quadratic root extraction: [poly_abs_to_conc] *)

Section Quadratic.

Variables a b c : R.

(** With [a = 0] the discriminant is [b ^ 2]: the square root is taken
    and it is the division that fails. *)
Lemma discriminant_a_zero (ABS : R) : 0 <= discriminant 0 b c ABS.
Proof. unfold discriminant. nra. Qed.

Lemma poly_abs_to_conc_eval (ABS : R) :
  a <> 0 -> 0 <= discriminant a b c ABS ->
  poly_abs_to_conc a b c ABS =
  Ok ((- b + sqrt (discriminant a b c ABS)) / (2 * a)).
Proof.
  intros Ha Hd. unfold poly_abs_to_conc.
  fold (discriminant a b c ABS).
  rewrite math_sqrt_nonneg by exact Hd. cbn [bind].
  rewrite truediv_nonzero by lra. reflexivity.
Qed.

Lemma poly_abs_to_conc_negative (ABS : R) :
  discriminant a b c ABS < 0 ->
  poly_abs_to_conc a b c ABS = Raise ValueError.
Proof.
  intros Hd. unfold poly_abs_to_conc.
  fold (discriminant a b c ABS).
  now rewrite math_sqrt_neg.
Qed.

Lemma poly_abs_to_conc_zero_a (ABS : R) :
  a = 0 -> 0 <= discriminant a b c ABS ->
  poly_abs_to_conc a b c ABS = Raise ZeroDivisionError.
Proof.
  intros Ha Hd. unfold poly_abs_to_conc.
  fold (discriminant a b c ABS).
  rewrite math_sqrt_nonneg by exact Hd. cbn [bind].
  replace (2 * a) with 0 by lra.
  now rewrite truediv_zero.
Qed.

(** The "+" root is a root. *)
Lemma plus_root_is_root (ABS : R) :
  a <> 0 -> 0 <= discriminant a b c ABS ->
  let conc := (- b + sqrt (discriminant a b c ABS)) / (2 * a) in
  a * conc ^ 2 + b * conc + (c - ABS) = 0.
Proof.
  intros Ha Hd conc. subst conc.
  pose proof (sqrt_sqrt _ Hd) as Hs.
  set (s := sqrt (discriminant a b c ABS)) in *.
  unfold discriminant in Hs.
  replace (a * ((- b + s) / (2 * a)) ^ 2 + b * ((- b + s) / (2 * a)) + (c - ABS))
    with ((s * s - (b ^ 2 - 4 * a * (c - ABS))) / (4 * a))
    by (field; exact Ha).
  rewrite Hs. field. exact Ha.
Qed.

End Quadratic.

(** C2.  For [a <> 0] and a non-negative discriminant the call returns the
    "+" branch of the quadratic formula,
    [(-b + sqrt (b^2 - 4*a*(c - A))) / (2*a)], and that value solves
    [a*conc^2 + b*conc + (c - A) = 0]. *)
Theorem poly_abs_to_conc_plus_root (a b c A : R) :
  a <> 0 ->
  0 <= b ^ 2 - 4 * a * (c - A) ->
  exists conc,
    poly_abs_to_conc a b c A = Ok conc
    /\ conc = (- b + sqrt (b ^ 2 - 4 * a * (c - A))) / (2 * a)
    /\ a * conc ^ 2 + b * conc + (c - A) = 0.
Proof.
  intros Ha Hd. eexists. split; [| split; [reflexivity |]].
  - now apply poly_abs_to_conc_eval.
  - now apply plus_root_is_root.
Qed.

Lemma poly_abs_to_conc_plus_root_witness :
  exists conc,
    poly_abs_to_conc 1 (-3) 2 0 = Ok conc
    /\ conc = (- (-3) + sqrt ((-3) ^ 2 - 4 * 1 * (2 - 0))) / (2 * 1)
    /\ 1 * conc ^ 2 + (-3) * conc + (2 - 0) = 0.
Proof. apply (poly_abs_to_conc_plus_root 1 (-3) 2 0); lra. Defined.

(** In this embedding, where the arithmetic is exact, the call raises
    exactly when the discriminant is negative, a [ValueError] out of
    [math.sqrt], or [a = 0], a [ZeroDivisionError].  On binary64 numbers
    neither direction holds, as the section on binary64 numbers shows. *)
Lemma poly_abs_to_conc_exact_failures (a b c A : R) :
  (raises (poly_abs_to_conc a b c A) <->
   b ^ 2 - 4 * a * (c - A) < 0 \/ a = 0)
  /\ (b ^ 2 - 4 * a * (c - A) < 0 ->
      poly_abs_to_conc a b c A = Raise ValueError)
  /\ (a = 0 -> poly_abs_to_conc a b c A = Raise ZeroDivisionError).
Proof.
  fold (discriminant a b c A).
  split; [split | split].
  - intros [e He].
    destruct (Rlt_dec (discriminant a b c A) 0) as [L | NL]; [now left |].
    right. destruct (Req_dec_T a 0) as [E | N]; [exact E |].
    rewrite poly_abs_to_conc_eval in He by (auto; lra). discriminate.
  - intros [L | E].
    + exists ValueError. now apply poly_abs_to_conc_negative.
    + exists ZeroDivisionError. apply poly_abs_to_conc_zero_a; [exact E |].
      subst a. apply discriminant_a_zero.
  - apply poly_abs_to_conc_negative.
  - intros E. apply poly_abs_to_conc_zero_a; [exact E |].
    subst a. apply discriminant_a_zero.
Qed.

(** ** Quadratic calibration: [calc_PO4_conc_and_uncert] *)

Section QuadraticCalibration.

Variables A a b c s_blank : R.

(** The three root extractions run in sequence; the call returns as soon
    as all three do, because [np.sqrt] then sees a sum of two squares. *)
Lemma calc_PO4_eval (x xp xm : R) :
  poly_abs_to_conc a b c A = Ok x ->
  poly_abs_to_conc a b c (A + s_blank) = Ok xp ->
  poly_abs_to_conc a b c (A - s_blank) = Ok xm ->
  calc_PO4_conc_and_uncert A a b c s_blank =
  Ok (x, np_val (sqrt (s_blank ^ 2 + (Rabs (xp - xm) / 2) ^ 2))).
Proof.
  intros H H1 H2. unfold calc_PO4_conc_and_uncert.
  rewrite H, H1, H2. cbn [bind].
  rewrite np_sqrt_nonneg by apply sum_sq2_nonneg.
  reflexivity.
Qed.

(** An exception of the first root extraction is the exception of the
    call. *)
Lemma calc_PO4_propagates (e : exn) :
  poly_abs_to_conc a b c A = Raise e ->
  calc_PO4_conc_and_uncert A a b c s_blank = Raise e.
Proof.
  intros H. unfold calc_PO4_conc_and_uncert. now rewrite H.
Qed.

End QuadraticCalibration.

(** C3.  When [a <> 0] and the discriminants at [A], [A + s_blank] and
    [A - s_blank] are non-negative, the three root extractions return and
    the call returns [conc = poly_abs_to_conc(a, b, c, A)] with
    [u_combined = sqrt (s_blank^2 + u_sample^2)], where [u_sample] is half
    the absolute difference of the roots at [A + s_blank] and
    [A - s_blank]. *)
Theorem calc_PO4_conc_and_uncert_formula (A a b c s_blank : R) :
  a <> 0 ->
  0 <= b ^ 2 - 4 * a * (c - A) ->
  0 <= b ^ 2 - 4 * a * (c - (A + s_blank)) ->
  0 <= b ^ 2 - 4 * a * (c - (A - s_blank)) ->
  exists conc conc_plus conc_minus,
    poly_abs_to_conc a b c A = Ok conc
    /\ poly_abs_to_conc a b c (A + s_blank) = Ok conc_plus
    /\ poly_abs_to_conc a b c (A - s_blank) = Ok conc_minus
    /\ let u_sample := Rabs (conc_plus - conc_minus) / 2 in
       calc_PO4_conc_and_uncert A a b c s_blank =
       Ok (conc, np_val (sqrt (s_blank ^ 2 + u_sample ^ 2))).
Proof.
  intros Ha Hd Hp Hm.
  pose proof (poly_abs_to_conc_eval a b c A Ha Hd) as E.
  pose proof (poly_abs_to_conc_eval a b c (A + s_blank) Ha Hp) as Ep.
  pose proof (poly_abs_to_conc_eval a b c (A - s_blank) Ha Hm) as Em.
  do 3 eexists. repeat split; [exact E | exact Ep | exact Em |].
  cbv zeta. now apply calc_PO4_eval.
Qed.

Lemma calc_PO4_conc_and_uncert_formula_witness :
  exists conc conc_plus conc_minus,
    poly_abs_to_conc 1 0 0 2 = Ok conc
    /\ poly_abs_to_conc 1 0 0 (2 + 1) = Ok conc_plus
    /\ poly_abs_to_conc 1 0 0 (2 - 1) = Ok conc_minus
    /\ let u_sample := Rabs (conc_plus - conc_minus) / 2 in
       calc_PO4_conc_and_uncert 2 1 0 0 1 =
       Ok (conc, np_val (sqrt (1 ^ 2 + u_sample ^ 2))).
Proof. apply (calc_PO4_conc_and_uncert_formula 2 1 0 0 1); lra. Defined.

(** C8.  With [s_blank = 0] (and [a <> 0], discriminant non-negative) the
    quadratic inversion returns a combined uncertainty of exactly zero. *)
Theorem calc_PO4_zero_blank (A a b c : R) :
  a <> 0 ->
  0 <= b ^ 2 - 4 * a * (c - A) ->
  exists conc,
    calc_PO4_conc_and_uncert A a b c 0 = Ok (conc, np_val 0).
Proof.
  intros Ha Hd.
  assert (Hp : 0 <= discriminant a b c (A + 0))
    by (unfold discriminant; now replace (A + 0) with A by ring).
  assert (Hm : 0 <= discriminant a b c (A - 0))
    by (unfold discriminant; now replace (A - 0) with A by ring).
  eexists.
  rewrite (calc_PO4_eval A a b c 0 _ _ _
             (poly_abs_to_conc_eval a b c A Ha Hd)
             (poly_abs_to_conc_eval a b c (A + 0) Ha Hp)
             (poly_abs_to_conc_eval a b c (A - 0) Ha Hm)).
  do 2 f_equal.
  replace (A + 0) with A by ring. replace (A - 0) with A by ring.
  rewrite Rminus_diag, Rabs_R0.
  replace (0 ^ 2 + (0 / 2) ^ 2) with 0 by field.
  now rewrite sqrt_0.
Qed.

Lemma calc_PO4_zero_blank_witness :
  exists conc, calc_PO4_conc_and_uncert 0 1 (-3) 2 0 = Ok (conc, np_val 0).
Proof. apply (calc_PO4_zero_blank 0 1 (-3) 2); lra. Defined.

(** C9.  On every valid input the combined uncertainty that is returned is
    a number (never NaN) and is non-negative: for the linear inversion when
    [m <> 0], for the quadratic inversion when [a <> 0] and the three
    discriminants are non-negative. *)
Theorem u_combined_nonneg :
  (forall A b0 m s_blank s_m s_b0 : R,
      m <> 0 ->
      exists conc u,
        calc_Si_conc_and_uncert A b0 m s_blank s_m s_b0 = Ok (conc, np_val u)
        /\ 0 <= u)
  /\ (forall A a b c s_blank : R,
      a <> 0 ->
      0 <= b ^ 2 - 4 * a * (c - A) ->
      0 <= b ^ 2 - 4 * a * (c - (A + s_blank)) ->
      0 <= b ^ 2 - 4 * a * (c - (A - s_blank)) ->
      exists conc u,
        calc_PO4_conc_and_uncert A a b c s_blank = Ok (conc, np_val u)
        /\ 0 <= u).
Proof.
  split.
  - intros A b0 m s_blank s_m s_b0 Hm.
    rewrite calc_Si_eval by exact Hm.
    do 2 eexists. split; [reflexivity | apply sqrt_pos].
  - intros A a b c s_blank Ha Hd Hp Hm.
    rewrite (calc_PO4_eval A a b c s_blank _ _ _
               (poly_abs_to_conc_eval a b c A Ha Hd)
               (poly_abs_to_conc_eval a b c (A + s_blank) Ha Hp)
               (poly_abs_to_conc_eval a b c (A - s_blank) Ha Hm)).
    do 2 eexists. split; [reflexivity | apply sqrt_pos].
Qed.

Lemma u_combined_nonneg_witness :
  (exists conc u,
      calc_Si_conc_and_uncert 5 1 2 3 4 6 = Ok (conc, np_val u) /\ 0 <= u)
  /\ (exists conc u,
      calc_PO4_conc_and_uncert 2 1 0 0 1 = Ok (conc, np_val u) /\ 0 <= u).
Proof.
  split.
  - apply (proj1 u_combined_nonneg 5 1 2 3 4 6). lra.
  - apply (proj2 u_combined_nonneg 2 1 0 0 1); lra.
Defined.

(** ** The dilution solver: [conc_to_dil] *)

(** Every object is [None], zero, or a non-zero number. *)
Lemma value_cases (x : value) :
  x = PyNone \/ x = PyNum 0 \/ exists r, r <> 0 /\ x = PyNum r.
Proof.
  destruct x as [| r]; [now left |].
  destruct (Req_dec_T r 0) as [-> | N]; [now right; left |].
  right; right. now exists r.
Qed.

(** Evaluation of a call on arguments whose shape is known. *)
Ltac nonzero := first [assumption | lra].

Ltac py_eval :=
  repeat first
    [ rewrite py_not_none
    | rewrite py_not_zero
    | rewrite truediv_zero
    | rewrite py_not_num by nonzero
    | rewrite truediv_nonzero by nonzero
    | progress cbn [bind assign_if py_mul py_truediv load_local solve_for] ].

Ltac value_shape x :=
  let r := fresh "r" in
  let H := fresh "H" r in
  destruct (value_cases x) as [-> | [-> | (r & H & ->)]].

(** The source as a loop: the assignments of all falsy arguments are run,
    in checking order, and the last one is the value of [output]. *)
Lemma conc_to_dil_runs_all (c1 v1 c2 v2 : value) :
  conc_to_dil c1 v1 c2 v2 =
  (output <- run_assignments c1 v1 c2 v2 (falsy_args c1 v1 c2 v2) None ;;
   load_local output).
Proof.
  unfold conc_to_dil, falsy_args, checking_order, assign_if.
  cbn [filter arg].
  destruct (py_not c1), (py_not c2), (py_not v1), (py_not v2);
    cbn [run_assignments solve_for];
    repeat match goal with
           | |- context [py_mul ?x ?y] => destruct (py_mul x y); cbn [bind]
           | |- context [py_truediv ?x ?y] => destruct (py_truediv x y); cbn [bind]
           end;
    reflexivity.
Qed.

(** The specification's reading, through the list of falsy arguments: the
    head of the list is solved for. *)
Lemma first_falsy_solve_head (c1 v1 c2 v2 : value) :
  first_falsy_solve c1 v1 c2 v2 =
  match falsy_args c1 v1 c2 v2 with
  | [] => Raise UnboundLocalError
  | u :: _ => solve_for c1 v1 c2 v2 u
  end.
Proof.
  unfold first_falsy_solve, falsy_args, checking_order. cbn [filter arg].
  destruct (py_not c1), (py_not c2), (py_not v1), (py_not v2); reflexivity.
Qed.

(** One failing assignment makes the whole run fail. *)
Lemma run_assignments_raises (c1 v1 c2 v2 : value) (us : list unknown) :
  forall (u : unknown) (e : exn) (output : option value),
    In u us ->
    solve_for c1 v1 c2 v2 u = Raise e ->
    raises (run_assignments c1 v1 c2 v2 us output).
Proof.
  induction us as [| u0 us IH]; intros u e output Hin He; [contradiction |].
  cbn [run_assignments].
  destruct (solve_for c1 v1 c2 v2 u0) as [x | e0] eqn:E0; cbn [bind].
  - destruct Hin as [-> | Hin]; [congruence |].
    now apply (IH u e).
  - now exists e0.
Qed.

(** With a single assignment to run, the call is that assignment. *)
Lemma run_single (c1 v1 c2 v2 : value) (u : unknown) :
  (output <- run_assignments c1 v1 c2 v2 [u] None ;; load_local output) =
  solve_for c1 v1 c2 v2 u.
Proof.
  cbn [run_assignments].
  now destruct (solve_for c1 v1 c2 v2 u).
Qed.

(** Whatever the call returns is what the first falsy argument solves to:
    two falsy arguments that both solve without error both solve to zero. *)
Lemma conc_to_dil_returns_first (c1 v1 c2 v2 r : value) :
  conc_to_dil c1 v1 c2 v2 = Ok r -> first_falsy_solve c1 v1 c2 v2 = Ok r.
Proof.
  value_shape c1; value_shape v1; value_shape c2; value_shape v2;
    unfold conc_to_dil, first_falsy_solve; py_eval;
    try discriminate; try (intros E; exact E).
  all: intros E; injection E as <-; do 2 f_equal; field; nonzero.
Qed.

(** C4, as the specification states it, fails: with [c1] omitted and a
    supplied [c2 = 0] the first falsy input is [c1], which solves to
    [(0 * 3) / 2]; the source goes on to the test of [c2], whose assignment
    multiplies [None] and raises. *)
Lemma conc_to_dil_not_first_falsy :
  first_falsy_solve PyNone (PyNum 2) (PyNum 0) (PyNum 3) = Ok (PyNum (0 * 3 / 2))
  /\ conc_to_dil PyNone (PyNum 2) (PyNum 0) (PyNum 3) = Raise TypeError
  /\ conc_to_dil PyNone (PyNum 2) (PyNum 0) (PyNum 3)
     <> first_falsy_solve PyNone (PyNum 2) (PyNum 0) (PyNum 3).
Proof.
  assert (F : first_falsy_solve PyNone (PyNum 2) (PyNum 0) (PyNum 3)
              = Ok (PyNum (0 * 3 / 2)))
    by (unfold first_falsy_solve; py_eval; reflexivity).
  assert (C : conc_to_dil PyNone (PyNum 2) (PyNum 0) (PyNum 3) = Raise TypeError)
    by (unfold conc_to_dil; py_eval; reflexivity).
  repeat split; [exact F | exact C |].
  rewrite F, C. discriminate.
Qed.

(** C4 (amended).  The four inputs are tested in the order c1, c2, v1, v2
    and the assignment of every falsy one is run, each overwriting
    [output]; so the call raises when the assignment of any falsy input
    raises, it is the first falsy input's solution when exactly one input is
    falsy, and whenever it returns a value that value is the one solved for
    the first falsy input from the other three. *)
Theorem conc_to_dil_first_falsy (c1 v1 c2 v2 : value) :
  conc_to_dil c1 v1 c2 v2 =
    (output <- run_assignments c1 v1 c2 v2 (falsy_args c1 v1 c2 v2) None ;;
     load_local output)
  /\ (forall u e,
        In u (falsy_args c1 v1 c2 v2) ->
        solve_for c1 v1 c2 v2 u = Raise e ->
        raises (conc_to_dil c1 v1 c2 v2))
  /\ (forall u,
        falsy_args c1 v1 c2 v2 = [u] ->
        conc_to_dil c1 v1 c2 v2 = first_falsy_solve c1 v1 c2 v2)
  /\ (forall r,
        conc_to_dil c1 v1 c2 v2 = Ok r ->
        first_falsy_solve c1 v1 c2 v2 = Ok r).
Proof.
  split; [apply conc_to_dil_runs_all |]. split; [| split].
  - intros u e Hin He. rewrite conc_to_dil_runs_all.
    destruct (run_assignments_raises c1 v1 c2 v2 _ u e None Hin He) as [e' He'].
    exists e'. now rewrite He'.
  - intros u Hu.
    rewrite conc_to_dil_runs_all, first_falsy_solve_head, Hu.
    apply run_single.
  - intros r. apply conc_to_dil_returns_first.
Qed.

Lemma conc_to_dil_first_falsy_witness :
  raises (conc_to_dil PyNone (PyNum 2) (PyNum 0) (PyNum 3))
  /\ conc_to_dil PyNone (PyNum 2) (PyNum 4) (PyNum 3)
     = first_falsy_solve PyNone (PyNum 2) (PyNum 4) (PyNum 3)
  /\ first_falsy_solve (PyNum 0) (PyNum 2) (PyNum 0) (PyNum 3)
     = Ok (PyNum (0 * 2 / 3)).
Proof.
  split; [| split].
  - apply (proj1 (proj2 (conc_to_dil_first_falsy
                           PyNone (PyNum 2) (PyNum 0) (PyNum 3)))
             U_c2 TypeError).
    + unfold falsy_args, checking_order. cbn [filter arg].
      py_eval. cbn [negb]. right. now left.
    + reflexivity.
  - apply (proj1 (proj2 (proj2 (conc_to_dil_first_falsy
                                  PyNone (PyNum 2) (PyNum 4) (PyNum 3))))
             U_c1).
    unfold falsy_args, checking_order. cbn [filter arg].
    py_eval. reflexivity.
  - apply (proj2 (proj2 (proj2 (conc_to_dil_first_falsy
                                  (PyNum 0) (PyNum 2) (PyNum 0) (PyNum 3))))).
    unfold conc_to_dil. py_eval. reflexivity.
Defined.

(** C7, as the specification states it, fails: it asks the supplied values
    to be non-zero only where they divide.  With [c1] omitted, the divisor
    [v1 = 2] and a supplied [c2 = 0], the zero is taken for an omitted
    argument as well, its assignment multiplies [None], and the call raises
    instead of returning the solution [c1 = 0]. *)
Lemma conc_to_dil_supplied_zero :
  conc_to_dil PyNone (PyNum 2) (PyNum 0) (PyNum 5) = Raise TypeError
  /\ ~ (exists r,
          conc_to_dil PyNone (PyNum 2) (PyNum 0) (PyNum 5) = Ok (PyNum r)
          /\ dilution_identity r 2 0 5).
Proof.
  assert (C : conc_to_dil PyNone (PyNum 2) (PyNum 0) (PyNum 5) = Raise TypeError)
    by (unfold conc_to_dil; py_eval; reflexivity).
  split; [exact C |].
  intros (r & Hr & _). rewrite C in Hr. discriminate.
Qed.

(** C7 (amended).  In each of the four solve branches -- exactly one of
    c1, v1, c2, v2 omitted, the other three supplied and non-zero -- the
    call returns a number, and putting it in the place of the omitted
    variable makes [c1 * v1 = c2 * v2] hold. *)
Theorem conc_to_dil_round_trip (x y z : R) :
  x <> 0 -> y <> 0 -> z <> 0 ->
  (exists c1,
      conc_to_dil PyNone (PyNum x) (PyNum y) (PyNum z) = Ok (PyNum c1)
      /\ dilution_identity c1 x y z)
  /\ (exists v1,
      conc_to_dil (PyNum x) PyNone (PyNum y) (PyNum z) = Ok (PyNum v1)
      /\ dilution_identity x v1 y z)
  /\ (exists c2,
      conc_to_dil (PyNum x) (PyNum y) PyNone (PyNum z) = Ok (PyNum c2)
      /\ dilution_identity x y c2 z)
  /\ (exists v2,
      conc_to_dil (PyNum x) (PyNum y) (PyNum z) PyNone = Ok (PyNum v2)
      /\ dilution_identity x y z v2).
Proof.
  intros Hx Hy Hz. unfold dilution_identity, conc_to_dil.
  repeat split; py_eval; eexists; (split; [reflexivity | field; nonzero]).
Qed.

Lemma conc_to_dil_round_trip_witness :
  (exists c1,
      conc_to_dil PyNone (PyNum 2) (PyNum 3) (PyNum 4) = Ok (PyNum c1)
      /\ dilution_identity c1 2 3 4)
  /\ (exists v1,
      conc_to_dil (PyNum 2) PyNone (PyNum 3) (PyNum 4) = Ok (PyNum v1)
      /\ dilution_identity 2 v1 3 4)
  /\ (exists c2,
      conc_to_dil (PyNum 2) (PyNum 3) PyNone (PyNum 4) = Ok (PyNum c2)
      /\ dilution_identity 2 3 c2 4)
  /\ (exists v2,
      conc_to_dil (PyNum 2) (PyNum 3) (PyNum 4) PyNone = Ok (PyNum v2)
      /\ dilution_identity 2 3 4 v2).
Proof. apply (conc_to_dil_round_trip 2 3 4); lra. Defined.

(** The example of the docstring: [c1 = 4000.65], [v1] omitted, [c2 = 5],
    [v2 = 50] gives the spike volume [5 * 50 / 4000.65]. *)
Example conc_to_dil_docstring :
  conc_to_dil (PyNum 4000.65) PyNone (PyNum 5) (PyNum 50)
  = Ok (PyNum (5 * 50 / 4000.65)).
Proof. unfold conc_to_dil. py_eval. reflexivity. Qed.

(** C10.  When all four arguments are truthy no [if] assigns [output], and
    the [return] raises [UnboundLocalError]; hence a call that returns a
    value has at least one falsy argument. *)
Theorem conc_to_dil_all_truthy (c1 v1 c2 v2 : value) :
  (truthy c1 = true -> truthy v1 = true ->
   truthy c2 = true -> truthy v2 = true ->
   conc_to_dil c1 v1 c2 v2 = Raise UnboundLocalError)
  /\ (returns (conc_to_dil c1 v1 c2 v2) ->
      truthy c1 = false \/ truthy v1 = false
      \/ truthy c2 = false \/ truthy v2 = false).
Proof.
  assert (T : truthy c1 = true -> truthy v1 = true ->
              truthy c2 = true -> truthy v2 = true ->
              conc_to_dil c1 v1 c2 v2 = Raise UnboundLocalError).
  { intros H1 H2 H3 H4. unfold conc_to_dil, py_not.
    rewrite H1, H2, H3, H4. reflexivity. }
  split; [exact T |].
  intros [r Hr].
  destruct (truthy c1) eqn:H1; [| now left].
  destruct (truthy v1) eqn:H2; [| now right; left].
  destruct (truthy c2) eqn:H3; [| now right; right; left].
  destruct (truthy v2) eqn:H4; [| now right; right; right].
  rewrite T in Hr by reflexivity. discriminate.
Qed.

Lemma conc_to_dil_all_truthy_witness :
  conc_to_dil (PyNum 2) (PyNum 3) (PyNum 4) (PyNum 5) = Raise UnboundLocalError
  /\ (truthy PyNone = false \/ truthy (PyNum 3) = false
      \/ truthy (PyNum 4) = false \/ truthy (PyNum 5) = false).
Proof.
  split.
  - apply (proj1 (conc_to_dil_all_truthy (PyNum 2) (PyNum 3) (PyNum 4) (PyNum 5)));
      apply truthy_num; lra.
  - apply (proj2 (conc_to_dil_all_truthy PyNone (PyNum 3) (PyNum 4) (PyNum 5))).
    exists (PyNum (4 * 5 / 3)). unfold conc_to_dil. py_eval. reflexivity.
Defined.

(** ** Which calls raise: the inversions on binary64 numbers *)


















(** * Further properties read off the source *)

(** ** Linear calibration, continued *)

(** Square roots of squares, as the uncertainty formulas need them. *)
Lemma sqrt_sq_abs (x : R) : sqrt (x ^ 2) = Rabs x.
Proof. rewrite <- Rsqr_pow2. apply sqrt_Rsqr_abs. Qed.

(** X1.  The linear inversion undoes the calibration line: the absorbance
    [m * x + b0] of a concentration [x] is converted back to [x], and the
    concentration returned for any absorbance [A] lies on the line,
    [m * conc + b0 = A]. *)
Theorem calc_Si_inverts_line (m b0 s_blank s_m s_b0 : R) :
  m <> 0 ->
  (forall x, exists u,
      calc_Si_conc_and_uncert (m * x + b0) b0 m s_blank s_m s_b0 = Ok (x, u))
  /\ (forall A, exists conc u,
      calc_Si_conc_and_uncert A b0 m s_blank s_m s_b0 = Ok (conc, u)
      /\ m * conc + b0 = A).
Proof.
  intros Hm. split.
  - intros x. rewrite calc_Si_eval by exact Hm.
    eexists. do 2 f_equal. field. exact Hm.
  - intros A. rewrite calc_Si_eval by exact Hm.
    do 2 eexists. split; [reflexivity |]. field. exact Hm.
Qed.

Lemma calc_Si_inverts_line_witness :
  (forall x, exists u,
      calc_Si_conc_and_uncert (2 * x + 1) 1 2 3 4 6 = Ok (x, u))
  /\ (forall A, exists conc u,
      calc_Si_conc_and_uncert A 1 2 3 4 6 = Ok (conc, u)
      /\ 2 * conc + 1 = A).
Proof. apply (calc_Si_inverts_line 2 1 3 4 6). lra. Defined.

(** X2.  The combined uncertainty of the linear inversion, in terms of the
    concentration it returns: the three error inputs, the slope error
    weighted by the concentration, are added in quadrature and divided by
    the absolute value of the slope. *)
Theorem calc_Si_uncert_by_conc (A b0 m s_blank s_m s_b0 : R) :
  m <> 0 ->
  exists conc,
    calc_Si_conc_and_uncert A b0 m s_blank s_m s_b0 =
    Ok (conc,
        np_val (sqrt (s_blank ^ 2 + (conc * s_m) ^ 2 + s_b0 ^ 2) / Rabs m)).
Proof.
  intros Hm. rewrite calc_Si_eval by exact Hm.
  exists ((A - b0) / m). do 3 f_equal.
  assert (Hm2 : 0 < m ^ 2) by (pose proof (sq_nonzero m Hm); pose proof (pow2_ge_0 m); lra).
  rewrite <- (sqrt_sq_abs m).
  rewrite <- sqrt_div_alt by exact Hm2.
  f_equal. field. exact Hm.
Qed.

Lemma calc_Si_uncert_by_conc_witness :
  exists conc,
    calc_Si_conc_and_uncert 5 1 2 3 4 6 =
    Ok (conc, np_val (sqrt (3 ^ 2 + (conc * 4) ^ 2 + 6 ^ 2) / Rabs 2)).
Proof. apply (calc_Si_uncert_by_conc 5 1 2 3 4 6). lra. Defined.

(** X3.  The linear inversion reports a zero uncertainty exactly when the
    blank scatter and the intercept error are zero and the slope error
    does not count: it is zero itself, or the absorbance equals the
    intercept. *)
Theorem calc_Si_uncert_zero_iff (A b0 m s_blank s_m s_b0 : R) :
  m <> 0 ->
  (calc_Si_conc_and_uncert A b0 m s_blank s_m s_b0
   = Ok ((A - b0) / m, np_val 0)
   <-> s_blank = 0 /\ s_b0 = 0 /\ (A = b0 \/ s_m = 0)).
Proof.
  intros Hm. rewrite calc_Si_eval by exact Hm.
  set (t1 := 1 / m * s_blank). set (t2 := (A - b0) / m ^ 2 * s_m).
  set (t3 := 1 / m * s_b0).
  assert (E1 : s_blank = m * t1) by (unfold t1; field; exact Hm).
  assert (E2 : (A - b0) * s_m = m ^ 2 * t2) by (unfold t2; field; exact Hm).
  assert (E3 : s_b0 = m * t3) by (unfold t3; field; exact Hm).
  split.
  - intros H.
    assert (H0 : sqrt (t1 ^ 2 + t2 ^ 2 + t3 ^ 2) = 0) by congruence.
    apply sqrt_eq_0 in H0; [| apply sum_sq3_nonneg].
    assert (Z1 : t1 = 0) by nra.
    assert (Z2 : t2 = 0) by nra.
    assert (Z3 : t3 = 0) by nra.
    rewrite Z1 in E1. rewrite Z2 in E2. rewrite Z3 in E3.
    repeat split; try lra.
    replace (m ^ 2 * 0) with 0 in E2 by ring.
    apply Rmult_integral in E2. destruct E2; [left; lra | now right].
  - intros (H1 & H3 & H2).
    assert (Z1 : t1 = 0) by (unfold t1; rewrite H1; ring).
    assert (Z3 : t3 = 0) by (unfold t3; rewrite H3; ring).
    assert (Z2 : t2 = 0).
    { unfold t2. destruct H2 as [-> | ->]; field; exact Hm. }
    rewrite Z1, Z2, Z3.
    replace (0 ^ 2 + 0 ^ 2 + 0 ^ 2) with 0 by ring.
    now rewrite sqrt_0.
Qed.

Lemma calc_Si_uncert_zero_iff_witness :
  calc_Si_conc_and_uncert 1 1 2 0 4 0 = Ok ((1 - 1) / 2, np_val 0)
  <-> 0 = 0 /\ 0 = 0 /\ (1 = 1 \/ 4 = 0).
Proof. apply (calc_Si_uncert_zero_iff 1 1 2 0 4 0). lra. Defined.

(** X4.  Scaling the three error inputs by a common factor [k] scales the
    combined uncertainty by [|k|] and leaves the concentration alone; in
    particular the signs of the error inputs do not matter. *)
Theorem calc_Si_uncert_scales (A b0 m s_blank s_m s_b0 k : R) :
  m <> 0 ->
  exists conc u,
    calc_Si_conc_and_uncert A b0 m s_blank s_m s_b0 = Ok (conc, np_val u)
    /\ calc_Si_conc_and_uncert A b0 m (k * s_blank) (k * s_m) (k * s_b0)
       = Ok (conc, np_val (Rabs k * u)).
Proof.
  intros Hm. rewrite !calc_Si_eval by exact Hm.
  do 2 eexists. split; [reflexivity |].
  do 3 f_equal.
  rewrite <- (sqrt_sq_abs k).
  rewrite <- sqrt_mult_alt by apply pow2_ge_0.
  f_equal. field. exact Hm.
Qed.

Lemma calc_Si_uncert_scales_witness :
  exists conc u,
    calc_Si_conc_and_uncert 5 1 2 3 4 6 = Ok (conc, np_val u)
    /\ calc_Si_conc_and_uncert 5 1 2 (-1 * 3) (-1 * 4) (-1 * 6)
       = Ok (conc, np_val (Rabs (-1) * u)).
Proof. apply (calc_Si_uncert_scales 5 1 2 3 4 6 (-1)). lra. Defined.

(** ** Quadratic root extraction, continued *)

Section QuadraticCurve.

Variables a b c : R.
Hypothesis a_nonzero : a <> 0.

(** On an absorbance that comes from the curve the radicand is the square
    of the slope of the curve. *)
Lemma discriminant_on_curve (x : R) :
  discriminant a b c (calibration_curve a b c x) = (2 * a * x + b) ^ 2.
Proof. unfold discriminant, calibration_curve. ring. Qed.

Lemma poly_abs_to_conc_on_curve (x : R) :
  poly_abs_to_conc a b c (calibration_curve a b c x) =
  Ok ((- b + Rabs (2 * a * x + b)) / (2 * a)).
Proof.
  rewrite poly_abs_to_conc_eval;
    [| exact a_nonzero | rewrite discriminant_on_curve; apply pow2_ge_0].
  now rewrite discriminant_on_curve, sqrt_sq_abs.
Qed.

(** The root grows with the absorbance, whatever the sign of [a]. *)
Lemma plus_root_monotone (A1 A2 : R) :
  0 <= discriminant a b c A1 -> 0 <= discriminant a b c A2 ->
  A1 <= A2 ->
  (- b + sqrt (discriminant a b c A1)) / (2 * a)
  <= (- b + sqrt (discriminant a b c A2)) / (2 * a).
Proof.
  intros H1 H2 HA.
  set (d1 := discriminant a b c A1) in *.
  set (d2 := discriminant a b c A2) in *.
  assert (Hd : d2 - d1 = 4 * a * (A2 - A1))
    by (unfold d1, d2, discriminant; ring).
  assert (Hi : a * / a = 1) by (field; exact a_nonzero).
  unfold Rdiv. rewrite Rinv_mult.
  destruct (Rlt_dec 0 a) as [Hpos | Hneg].
  - assert (Hs : sqrt d1 <= sqrt d2) by (apply sqrt_le_1_alt; nra).
    assert (0 < / a) by (apply Rinv_0_lt_compat; exact Hpos).
    nra.
  - assert (Ha : a < 0) by lra.
    assert (Hs : sqrt d2 <= sqrt d1) by (apply sqrt_le_1_alt; nra).
    assert (/ a < 0) by (apply Rinv_lt_0_compat; exact Ha).
    nra.
Qed.

End QuadraticCurve.

(** Two concrete evaluations, used to instantiate the statements below. *)
Lemma poly_abs_to_conc_at_root : poly_abs_to_conc 1 (-3) 2 0 = Ok 2.
Proof.
  pose proof (poly_abs_to_conc_on_curve 1 (-3) 2 ltac:(lra) 2) as E.
  unfold calibration_curve in E.
  replace (1 * 2 ^ 2 + -3 * 2 + 2) with 0 in E by lra.
  rewrite E. f_equal.
  rewrite Rabs_pos_eq by lra. lra.
Qed.

Lemma poly_abs_to_conc_square (x : R) :
  0 <= x -> poly_abs_to_conc 1 0 0 (x ^ 2) = Ok x.
Proof.
  intros Hx.
  pose proof (poly_abs_to_conc_on_curve 1 0 0 ltac:(lra) x) as E.
  unfold calibration_curve in E.
  replace (1 * x ^ 2 + 0 * x + 0) with (x ^ 2) in E by ring.
  rewrite E. f_equal.
  rewrite Rabs_pos_eq by lra. lra.
Qed.

(** X5.  Round trip through the calibration curve, over exact real
    arithmetic.  When the call on the absorbance [a*x^2 + b*x + c] of a
    concentration [x] returns, the value is [x] if the curve does not fall
    at [x] ([2*a*x + b >= 0]), and the mirror concentration [-b/a - x] if it
    does not rise there. *)
Theorem poly_abs_to_conc_round_trip (a b c x conc : R) :
  poly_abs_to_conc a b c (a * x ^ 2 + b * x + c) = Ok conc ->
  (0 <= 2 * a * x + b -> conc = x)
  /\ (2 * a * x + b <= 0 -> conc = - b / a - x).
Proof.
  intros H.
  assert (Ha : a <> 0).
  { intros ->. rewrite poly_abs_to_conc_zero_a in H;
      [discriminate | reflexivity | apply discriminant_a_zero]. }
  pose proof (poly_abs_to_conc_on_curve a b c Ha x) as E.
  unfold calibration_curve in E. rewrite E in H. injection H as <-.
  split; intros Hs.
  - rewrite Rabs_pos_eq by exact Hs. field. exact Ha.
  - rewrite Rabs_left1 by exact Hs. field. exact Ha.
Qed.

Lemma poly_abs_to_conc_round_trip_witness :
  poly_abs_to_conc 1 0 0 (1 * 3 ^ 2 + 0 * 3 + 0) = Ok 3
  /\ (0 <= 2 * 1 * 3 + 0 -> 3 = 3)
  /\ (2 * 1 * 3 + 0 <= 0 -> 3 = - 0 / 1 - 3).
Proof.
  assert (E : poly_abs_to_conc 1 0 0 (1 * 3 ^ 2 + 0 * 3 + 0) = Ok 3).
  { replace (1 * 3 ^ 2 + 0 * 3 + 0) with (3 ^ 2) by ring.
    apply poly_abs_to_conc_square. lra. }
  split; [exact E |].
  exact (poly_abs_to_conc_round_trip 1 0 0 3 3 E).
Defined.

(** X6.  The root extraction keeps one of the two solutions: whenever it
    returns [conc], a concentration [x] reproduces the absorbance,
    [a*x^2 + b*x + c = A], exactly when [x] is [conc] or the other root
    [-b/a - conc]. *)
Theorem poly_abs_to_conc_other_root (a b c A conc x : R) :
  poly_abs_to_conc a b c A = Ok conc ->
  (a * x ^ 2 + b * x + c = A <-> x = conc \/ x = - b / a - conc).
Proof.
  intros H.
  assert (Ha : a <> 0).
  { intros ->. rewrite poly_abs_to_conc_zero_a in H;
      [discriminate | reflexivity | apply discriminant_a_zero]. }
  assert (Hd : 0 <= discriminant a b c A).
  { destruct (Rlt_dec (discriminant a b c A) 0) as [L | NL]; [| lra].
    rewrite poly_abs_to_conc_negative in H by exact L. discriminate. }
  pose proof (plus_root_is_root a b c A Ha Hd) as Hroot. cbv zeta in Hroot.
  rewrite poly_abs_to_conc_eval in H by assumption.
  injection H as H. rewrite H in Hroot.
  assert (Hf : a * x ^ 2 + b * x + c - A
               = a * (x - conc) * (x - (- b / a - conc))).
  { transitivity (a * x ^ 2 + b * x + (c - A)
                  - (a * conc ^ 2 + b * conc + (c - A))); [rewrite Hroot; ring |].
    field. exact Ha. }
  split.
  - intros Hx.
    assert (Hz : a * (x - conc) * (x - (- b / a - conc)) = 0) by lra.
    apply Rmult_integral in Hz. destruct Hz as [Hz | Hz]; [| right; lra].
    apply Rmult_integral in Hz. destruct Hz as [Hz | Hz]; [contradiction | left; lra].
  - intros [-> | ->].
    + replace (conc - conc) with 0 in Hf by ring. lra.
    + replace (- b / a - conc - (- b / a - conc)) with 0 in Hf by ring. lra.
Qed.

Lemma poly_abs_to_conc_other_root_witness :
  1 * 1 ^ 2 + (-3) * 1 + 2 = 0 <-> 1 = 2 \/ 1 = - (-3) / 1 - 2.
Proof.
  apply (poly_abs_to_conc_other_root 1 (-3) 2 0 2 1).
  exact poly_abs_to_conc_at_root.
Defined.

(** The order of two returned roots follows the order of the
    absorbances. *)
Lemma returned_roots_ordered (a b c A1 A2 x1 x2 : R) :
  poly_abs_to_conc a b c A1 = Ok x1 ->
  poly_abs_to_conc a b c A2 = Ok x2 ->
  A1 <= A2 ->
  x1 <= x2.
Proof.
  intros H1 H2 HA.
  assert (Ha : a <> 0).
  { intros ->. rewrite poly_abs_to_conc_zero_a in H1;
      [discriminate | reflexivity | apply discriminant_a_zero]. }
  assert (Hd : forall A y, poly_abs_to_conc a b c A = Ok y ->
                           0 <= discriminant a b c A).
  { intros A y H.
    destruct (Rlt_dec (discriminant a b c A) 0) as [L | NL]; [| lra].
    rewrite poly_abs_to_conc_negative in H by exact L. discriminate. }
  pose proof (Hd _ _ H1) as D1. pose proof (Hd _ _ H2) as D2.
  rewrite poly_abs_to_conc_eval in H1, H2 by assumption.
  injection H1 as <-. injection H2 as <-.
  now apply plus_root_monotone.
Qed.

(** X7.  A larger absorbance never gives a smaller concentration: on its
    domain the root extraction is non-decreasing in the absorbance, for a
    positive and for a negative leading coefficient alike. *)
Theorem poly_abs_to_conc_monotone (a b c A1 A2 x1 x2 : R) :
  poly_abs_to_conc a b c A1 = Ok x1 ->
  poly_abs_to_conc a b c A2 = Ok x2 ->
  A1 <= A2 ->
  x1 <= x2.
Proof. apply returned_roots_ordered. Qed.

Lemma poly_abs_to_conc_monotone_witness :
  poly_abs_to_conc 1 0 0 (1 ^ 2) = Ok 1
  /\ poly_abs_to_conc 1 0 0 (2 ^ 2) = Ok 2
  /\ 1 <= 2.
Proof.
  pose proof (poly_abs_to_conc_square 1 ltac:(lra)) as E1.
  pose proof (poly_abs_to_conc_square 2 ltac:(lra)) as E2.
  repeat split; [exact E1 | exact E2 |].
  apply (poly_abs_to_conc_monotone 1 0 0 (1 ^ 2) (2 ^ 2) 1 2 E1 E2). lra.
Defined.

(** ** Quadratic calibration, continued *)

Section QuadraticCalibrationCases.

Variables A a b c s : R.

(** The radicand is affine in the absorbance. *)
Lemma discriminant_shift (h : R) :
  discriminant a b c (A + h) = discriminant a b c A + 4 * a * h.
Proof. unfold discriminant. ring. Qed.

(** A call that returns has run its three root extractions. *)
Lemma calc_PO4_returns_inv (x : R) (u : np_float) :
  calc_PO4_conc_and_uncert A a b c s = Ok (x, u) ->
  exists xp xm,
    poly_abs_to_conc a b c A = Ok x
    /\ poly_abs_to_conc a b c (A + s) = Ok xp
    /\ poly_abs_to_conc a b c (A - s) = Ok xm
    /\ u = np_val (sqrt (s ^ 2 + (Rabs (xp - xm) / 2) ^ 2)).
Proof.
  unfold calc_PO4_conc_and_uncert.
  destruct (poly_abs_to_conc a b c A) as [x0 | e0]; cbn [bind];
    [| discriminate].
  destruct (poly_abs_to_conc a b c (A + s)) as [xp | ep]; cbn [bind];
    [| discriminate].
  destruct (poly_abs_to_conc a b c (A - s)) as [xm | em]; cbn [bind];
    [| discriminate].
  rewrite np_sqrt_nonneg by apply sum_sq2_nonneg.
  intros H. injection H as <- <-. now exists xp, xm.
Qed.

(** The two ways a call fails. *)
Lemma calc_PO4_zero_a :
  a = 0 -> calc_PO4_conc_and_uncert A a b c s = Raise ZeroDivisionError.
Proof.
  intros Ha. apply calc_PO4_propagates.
  apply poly_abs_to_conc_zero_a; [exact Ha |].
  subst a. apply discriminant_a_zero.
Qed.

Lemma calc_PO4_negative :
  a <> 0 ->
  discriminant a b c (A + s) < 0 \/ discriminant a b c (A - s) < 0 ->
  calc_PO4_conc_and_uncert A a b c s = Raise ValueError.
Proof.
  intros Ha Hneg. unfold calc_PO4_conc_and_uncert.
  destruct (Rlt_dec (discriminant a b c A) 0) as [L | NL].
  - now rewrite poly_abs_to_conc_negative.
  - rewrite (poly_abs_to_conc_eval a b c A) by (auto; lra). cbn [bind].
    destruct (Rlt_dec (discriminant a b c (A + s)) 0) as [Lp | NLp].
    + now rewrite poly_abs_to_conc_negative.
    + rewrite (poly_abs_to_conc_eval a b c (A + s)) by (auto; lra).
      cbn [bind].
      destruct Hneg as [Lp | Lm]; [contradiction |].
      now rewrite poly_abs_to_conc_negative.
Qed.

End QuadraticCalibrationCases.

(** X9.  The sign of the blank scatter does not matter: negating
    [s_blank] swaps the two perturbed evaluations and changes neither the
    returned pair nor the exception raised. *)
Theorem calc_PO4_blank_sign (A a b c s_blank : R) :
  calc_PO4_conc_and_uncert A a b c (- s_blank)
  = calc_PO4_conc_and_uncert A a b c s_blank.
Proof.
  destruct (Req_dec_T a 0) as [E | N].
  { now rewrite !calc_PO4_zero_a. }
  assert (Ep : A + - s_blank = A - s_blank) by ring.
  assert (Em : A - - s_blank = A + s_blank) by ring.
  destruct (Rlt_dec (discriminant a b c (A + s_blank)) 0) as [Lp | NLp].
  { rewrite (calc_PO4_negative A a b c s_blank N (or_introl Lp)).
    apply calc_PO4_negative; [exact N |]. right. now rewrite Em. }
  destruct (Rlt_dec (discriminant a b c (A - s_blank)) 0) as [Lm | NLm].
  { rewrite (calc_PO4_negative A a b c s_blank N (or_intror Lm)).
    apply calc_PO4_negative; [exact N |]. left. now rewrite Ep. }
  assert (Dp : 0 <= discriminant a b c (A + s_blank)) by lra.
  assert (Dm : 0 <= discriminant a b c (A - s_blank)) by lra.
  assert (D : 0 <= discriminant a b c A).
  { pose proof (discriminant_shift A a b c s_blank) as Hp.
    pose proof (discriminant_shift A a b c (- s_blank)) as Hm.
    rewrite Ep in Hm. lra. }
  pose proof (poly_abs_to_conc_eval a b c A N D) as H0.
  pose proof (poly_abs_to_conc_eval a b c (A + s_blank) N Dp) as Hp.
  pose proof (poly_abs_to_conc_eval a b c (A - s_blank) N Dm) as Hm.
  rewrite (calc_PO4_eval A a b c s_blank _ _ _ H0 Hp Hm).
  rewrite <- Ep in Hm. rewrite <- Em in Hp.
  rewrite (calc_PO4_eval A a b c (- s_blank) _ _ _ H0 Hm Hp).
  rewrite Ep, Em.
  rewrite (Rabs_minus_sym (_ / _) (_ / _)).
  now replace ((- s_blank) ^ 2) with (s_blank ^ 2) by ring.
Qed.

(** X10.  For a non-negative blank scatter the returned concentration lies
    between the two perturbed concentrations, so the sample term is half
    their plain difference, and the combined uncertainty is at least the
    blank scatter and at least the sample term. *)
Theorem calc_PO4_bracket (A a b c s_blank conc : R) (u_combined : np_float) :
  0 <= s_blank ->
  calc_PO4_conc_and_uncert A a b c s_blank = Ok (conc, u_combined) ->
  exists conc_plus conc_minus u,
    poly_abs_to_conc a b c (A + s_blank) = Ok conc_plus
    /\ poly_abs_to_conc a b c (A - s_blank) = Ok conc_minus
    /\ conc_minus <= conc <= conc_plus
    /\ u_combined = np_val u
    /\ u = sqrt (s_blank ^ 2 + ((conc_plus - conc_minus) / 2) ^ 2)
    /\ s_blank <= u
    /\ (conc_plus - conc_minus) / 2 <= u.
Proof.
  intros Hs H.
  destruct (calc_PO4_returns_inv A a b c s_blank conc u_combined H)
    as (xp & xm & H0 & Hp & Hm & Hu).
  assert (L1 : xm <= conc)
    by (apply (returned_roots_ordered a b c (A - s_blank) A); auto; lra).
  assert (L2 : conc <= xp)
    by (apply (returned_roots_ordered a b c A (A + s_blank)); auto; lra).
  exists xp, xm. eexists.
  rewrite Rabs_pos_eq in Hu by lra.
  repeat split; try eassumption; try reflexivity.
  - rewrite <- (sqrt_pow2 s_blank) at 1 by exact Hs.
    apply sqrt_le_1_alt. pose proof (pow2_ge_0 ((xp - xm) / 2)). lra.
  - rewrite <- (sqrt_pow2 ((xp - xm) / 2)) at 1 by lra.
    apply sqrt_le_1_alt. pose proof (pow2_ge_0 s_blank). lra.
Qed.

(** A call whose three absorbances are perfect squares. *)
Lemma calc_PO4_at_squares :
  calc_PO4_conc_and_uncert 25 1 0 0 24
  = Ok (5, np_val (sqrt (24 ^ 2 + (Rabs (7 - 1) / 2) ^ 2))).
Proof.
  apply calc_PO4_eval.
  - replace 25 with (5 ^ 2) by lra. apply poly_abs_to_conc_square. lra.
  - replace (25 + 24) with (7 ^ 2) by lra. apply poly_abs_to_conc_square. lra.
  - replace (25 - 24) with (1 ^ 2) by lra. apply poly_abs_to_conc_square. lra.
Qed.

Lemma calc_PO4_bracket_witness :
  exists conc_plus conc_minus u,
    poly_abs_to_conc 1 0 0 (25 + 24) = Ok conc_plus
    /\ poly_abs_to_conc 1 0 0 (25 - 24) = Ok conc_minus
    /\ conc_minus <= 5 <= conc_plus
    /\ np_val (sqrt (24 ^ 2 + (Rabs (7 - 1) / 2) ^ 2)) = np_val u
    /\ u = sqrt (24 ^ 2 + ((conc_plus - conc_minus) / 2) ^ 2)
    /\ 24 <= u
    /\ (conc_plus - conc_minus) / 2 <= u.
Proof.
  apply (calc_PO4_bracket 25 1 0 0 24 5 _ ltac:(lra) calc_PO4_at_squares).
Defined.

(** ** The dilution solver, continued *)

(** X11.  A zero passed for the unknown is treated exactly like an omitted
    argument: with the other three values non-zero, the call with [0] in
    the place of the unknown and the call with [None] there give the same
    result, in each of the four positions. *)
Theorem conc_to_dil_zero_as_omitted (x y z : R) :
  x <> 0 -> y <> 0 -> z <> 0 ->
  conc_to_dil (PyNum 0) (PyNum x) (PyNum y) (PyNum z)
  = conc_to_dil PyNone (PyNum x) (PyNum y) (PyNum z)
  /\ conc_to_dil (PyNum x) (PyNum 0) (PyNum y) (PyNum z)
     = conc_to_dil (PyNum x) PyNone (PyNum y) (PyNum z)
  /\ conc_to_dil (PyNum x) (PyNum y) (PyNum 0) (PyNum z)
     = conc_to_dil (PyNum x) (PyNum y) PyNone (PyNum z)
  /\ conc_to_dil (PyNum x) (PyNum y) (PyNum z) (PyNum 0)
     = conc_to_dil (PyNum x) (PyNum y) (PyNum z) PyNone.
Proof.
  intros Hx Hy Hz. unfold conc_to_dil.
  repeat split; py_eval; reflexivity.
Qed.

Lemma conc_to_dil_zero_as_omitted_witness :
  conc_to_dil (PyNum 0) (PyNum 2) (PyNum 3) (PyNum 4)
  = conc_to_dil PyNone (PyNum 2) (PyNum 3) (PyNum 4)
  /\ conc_to_dil (PyNum 2) (PyNum 0) (PyNum 3) (PyNum 4)
     = conc_to_dil (PyNum 2) PyNone (PyNum 3) (PyNum 4)
  /\ conc_to_dil (PyNum 2) (PyNum 3) (PyNum 0) (PyNum 4)
     = conc_to_dil (PyNum 2) (PyNum 3) PyNone (PyNum 4)
  /\ conc_to_dil (PyNum 2) (PyNum 3) (PyNum 4) (PyNum 0)
     = conc_to_dil (PyNum 2) (PyNum 3) (PyNum 4) PyNone.
Proof. apply (conc_to_dil_zero_as_omitted 2 3 4); lra. Defined.

(** X12.  Two omitted arguments are always a [TypeError]: whatever the
    other two arguments are, the first assignment that runs meets a
    [None] operand. *)
Theorem conc_to_dil_two_omitted (c1 v1 c2 v2 : value) (u u' : unknown) :
  u <> u' ->
  arg c1 v1 c2 v2 u = PyNone ->
  arg c1 v1 c2 v2 u' = PyNone ->
  conc_to_dil c1 v1 c2 v2 = Raise TypeError.
Proof.
  intros Hne Hu Hu'.
  destruct u, u'; try congruence; cbn [arg] in Hu, Hu'; subst;
    clear Hne; unfold conc_to_dil;
    repeat match goal with
           | x : value |- _ => value_shape x
           end;
    py_eval; reflexivity.
Qed.

Lemma conc_to_dil_two_omitted_witness :
  conc_to_dil PyNone PyNone (PyNum 5) (PyNum 50) = Raise TypeError.
Proof.
  apply (conc_to_dil_two_omitted PyNone PyNone (PyNum 5) (PyNum 50) U_c1 U_v1);
    [discriminate | reflexivity | reflexivity].
Defined.

(** X13.  With two falsy arguments the call can only return zero, and only
    when both are the number zero: if either of them is [None] the call
    raises. *)
Theorem conc_to_dil_two_falsy (c1 v1 c2 v2 r : value) (u u' : unknown) :
  u <> u' ->
  py_not (arg c1 v1 c2 v2 u) = true ->
  py_not (arg c1 v1 c2 v2 u') = true ->
  conc_to_dil c1 v1 c2 v2 = Ok r ->
  r = PyNum 0
  /\ arg c1 v1 c2 v2 u = PyNum 0
  /\ arg c1 v1 c2 v2 u' = PyNum 0.
Proof.
  intros Hne Hu Hu'.
  value_shape c1; value_shape v1; value_shape c2; value_shape v2;
    unfold conc_to_dil; py_eval; try discriminate;
    destruct u, u'; try congruence; cbn [arg] in *;
    try (rewrite py_not_num in Hu by assumption; discriminate);
    try (rewrite py_not_num in Hu' by assumption; discriminate);
    intros E; injection E as <-;
    (repeat split; try reflexivity); f_equal; field; nonzero.
Qed.

Lemma conc_to_dil_two_falsy_witness :
  PyNum (0 * 2 / 3) = PyNum 0
  /\ arg (PyNum 0) (PyNum 2) (PyNum 0) (PyNum 3) U_c1 = PyNum 0
  /\ arg (PyNum 0) (PyNum 2) (PyNum 0) (PyNum 3) U_c2 = PyNum 0.
Proof.
  apply (conc_to_dil_two_falsy (PyNum 0) (PyNum 2) (PyNum 0) (PyNum 3)
           (PyNum (0 * 2 / 3)) U_c1 U_c2).
  - discriminate.
  - apply py_not_zero.
  - apply py_not_zero.
  - unfold conc_to_dil. py_eval. reflexivity.
Defined.

(** X14.  Which exception a supplied zero causes.  With exactly one
    argument omitted and a zero among the three supplied numbers the call
    never returns.  It is a [ZeroDivisionError] only when the zero is met as
    a divisor before any [None] operand: [v1 = 0] with [c1] omitted, or
    [v2 = 0] (and [c1 <> 0]) with [c2] omitted.  In every other case,
    always when [v1] or [v2] is the omitted one, it is a [TypeError]. *)
Theorem conc_to_dil_zero_among_supplied (x y z : R) :
  x = 0 \/ y = 0 \/ z = 0 ->
  (x = 0 ->
   conc_to_dil PyNone (PyNum x) (PyNum y) (PyNum z) = Raise ZeroDivisionError)
  /\ (x <> 0 ->
      conc_to_dil PyNone (PyNum x) (PyNum y) (PyNum z) = Raise TypeError)
  /\ conc_to_dil (PyNum x) PyNone (PyNum y) (PyNum z) = Raise TypeError
  /\ (x <> 0 -> z = 0 ->
      conc_to_dil (PyNum x) (PyNum y) PyNone (PyNum z) = Raise ZeroDivisionError)
  /\ (x = 0 \/ z <> 0 ->
      conc_to_dil (PyNum x) (PyNum y) PyNone (PyNum z) = Raise TypeError)
  /\ conc_to_dil (PyNum x) (PyNum y) (PyNum z) PyNone = Raise TypeError.
Proof.
  intros Hzero. unfold conc_to_dil.
  destruct (Req_dec_T x 0) as [-> | Hx];
    destruct (Req_dec_T y 0) as [-> | Hy];
    destruct (Req_dec_T z 0) as [-> | Hz];
    try (exfalso; destruct Hzero as [H | [H | H]]; contradiction);
    repeat split; intros; py_eval;
    try reflexivity; try contradiction;
    match goal with
    | H : _ \/ _ |- _ => destruct H; contradiction || congruence
    | H : 0 <> 0 |- _ => now elim H
    end.
Qed.

Lemma conc_to_dil_zero_among_supplied_witness :
  conc_to_dil PyNone (PyNum 0) (PyNum 5) (PyNum 50) = Raise ZeroDivisionError
  /\ conc_to_dil (PyNum 0) PyNone (PyNum 5) (PyNum 50) = Raise TypeError
  /\ conc_to_dil (PyNum 0) (PyNum 5) (PyNum 50) PyNone = Raise TypeError.
Proof.
  pose proof (conc_to_dil_zero_among_supplied 0 5 50 (or_introl eq_refl))
    as (H1 & _ & H2 & _ & _ & H3).
  split; [exact (H1 eq_refl) | split; [exact H2 | exact H3]].
Defined.
